(** * f5-cloud-libs: licensing from BIG-IQ 5.2 and device onboarding

  A shallow embedding of [lib/bigIq5_2LicenseProvider.js] and of the
  onboarding operations exercised by [test/lib/bigIpOnboardTests.js].

  The remote control plane is an injected client.  Every call may change
  the remote side, so the client is modelled as a family of handlers over
  an abstract world [W]; each operation threads the world and emits the
  calls it issues as a chronological trace of events.  Promises are
  modelled by their final outcome.  Logging is left out: it has no part
  in the control flow. *)

From Equations Require Import Equations.
From stdpp Require Import gmap strings list fin_maps.
From Stdlib Require Import ZArith NArith.

Set Warnings "-register-all".

(** ** Promises and failure values *)

Module Promise.

(** A rejection reason.  [deferred.reject()] rejects with no value at all
  ([NoReason], JavaScript's [undefined]); [new Error (msg)] is [Error].
  [RetryExhausted] and [ConfigurationError] are the failure kinds named
  by the design document for the parts whose code is not at hand. *)
Inductive Reason :=
  | NoReason
  | Error (message : string)
  | RetryExhausted (last : Reason)
  | ConfigurationError (message : string).

(** The final outcome of a promise; [Pending] is a promise that is never
  settled. *)
Inductive Outcome (A : Type) :=
  | Resolved (a : A)
  | Rejected (r : Reason)
  | Pending.
Arguments Resolved {A} a.
Arguments Rejected {A} r.
Arguments Pending {A}.

(** What the remote client answers to one call. *)
Inductive Reply (A : Type) :=
  | Ok (a : A)
  | Fail (err : Reason).
Arguments Ok {A} a.
Arguments Fail {A} err.

Definition settle {A} (r : Reply A) : Outcome A :=
  match r with
  | Ok a => Resolved a
  | Fail e => Rejected e
  end.

End Promise.
Export Promise.

(** ** Values, request bodies and the trace of effects *)

(** The scalar JavaScript values the provider handles dynamically. *)
Inductive JsValue :=
| JUndefined
| JString (s : string).

(** [if (v)] *)
Definition truthy (v : JsValue) : bool :=
  match v with
  | JUndefined => false
  | JString s => negb (String.eqb s "")
  end.

(** [v === s] for a string [s] *)
Definition strict_eq (v : JsValue) (s : string) : bool :=
  match v with
  | JUndefined => false
  | JString t => String.eqb t s
  end.

(** ['...' + v] *)
Definition to_string (v : JsValue) : string :=
  match v with
  | JUndefined => "undefined"
  | JString s => s
  end.

(** A property of a primitive string that is neither [length], an index nor
  a method of [String.prototype] reads as [undefined]. *)
Definition string_prop (s : string) (prop : string) : JsValue := JUndefined.

(** Documents sent as request bodies. *)
Inductive Value :=
| VStr (s : string)
| VNum (n : Z)
| VObj (fields : gmap string Value).

#[global] Instance Value_eq_dec : EqDecision Value.
Proof.
  refine (fix go (x y : Value) : Decision (x = y) :=
    let _ : EqDecision Value := go in
    match x, y with
    | VStr s, VStr t => cast_if (decide (s = t))
    | VNum n, VNum m => cast_if (decide (n = m))
    | VObj f, VObj g => cast_if (decide (f = g))
    | _, _ => right _
    end); congruence.
Defined.

Record RetryPolicy := { maxRetries : nat; retryIntervalMs : N }.

Inductive Event :=
| ListCall (path : string)
| CreateCall (path : string) (body : gmap string Value)
| ModifyCall (path : string) (body : gmap string Value)
| TryUntilCall (policy : RetryPolicy)
| Wait (ms : N).

Definition is_mutation (e : Event) : bool :=
  match e with
  | CreateCall _ _ | ModifyCall _ _ => true
  | _ => false
  end.

Definition isTryUntil (e : Event) : bool :=
  match e with
  | TryUntilCall _ => true
  | _ => false
  end.

(** ** Computations against the remote world *)

Section Effects.
Context {W : Type}.

Definition M (A : Type) : Type := W -> A * W * list Event.

Definition ret {A} (a : A) : M A := fun w => (a, w, []).

Definition bind {A B} (m : M A) (f : A -> M B) : M B :=
  fun w =>
    let '(a, w1, t1) := m w in
    let '(b, w2, t2) := f a w1 in
    (b, w2, t1 ++ t2).

Definition emit (e : Event) : M unit := fun w => (tt, w, [e]).

(** One remote call through handler [h], recorded as event [e]. *)
Definition call {A} (e : Event) (h : W -> Reply A * W) : M (Outcome A) :=
  fun w => let '(r, w1) := h w in (settle r, w1, [e]).

(** [p.then (f)]: [f] runs on fulfilment, a rejection passes through. *)
Definition and_then {A B} (p : M (Outcome A)) (f : A -> M (Outcome B))
  : M (Outcome B) :=
  bind p (fun o =>
    match o with
    | Resolved a => f a
    | Rejected r => ret (Rejected r)
    | Pending => ret Pending
    end).

(** The events of [m] come after [t]. *)
Definition after_events {A} (t : list Event) (r : A * W * list Event)
  : A * W * list Event :=
  let '(a, w, t') := r in (a, w, t ++ t').

End Effects.

Notation "'let!' x ':=' m 'in' k" := (bind m (fun x => k))
  (at level 10, x pattern, m at level 100, k at level 200,
   format "'[v' 'let!'  x  ':='  m  'in' '/' k ']'").

(** ** util.tryUntil *)

Module Util.
Section TryUntil.
Context {W A : Type}.

(** Modelled from the spec: [util.tryUntil] ([lib/util.js] is not part
  of the sources at hand).  The action is invoked immediately; when
  it fails and fewer than [maxRetries] retries were made, the
  scheduler waits [retryIntervalMs] and retries; when it fails with
  the budget exhausted, the result is [RetryExhausted] wrapping the
  last failure.  An action that never settles leaves the whole run
  pending. *)
Fixpoint attempts (retriesLeft : nat) (interval : N)
  (action : M (W := W) (Outcome A)) : M (Outcome A) :=
  let! o := action in
  match o with
  | Resolved a => ret (Resolved a)
  | Pending => ret Pending
  | Rejected r =>
      match retriesLeft with
      | O => ret (Rejected (RetryExhausted r))
      | S n => let! _ := emit (Wait interval) in attempts n interval action
      end
  end.

(** Modelled from the spec: [util.tryUntil] runs the attempts under the
  policy it is given; the call itself is recorded with that policy. *)
Definition tryUntil (policy : RetryPolicy) (action : M (Outcome A))
  : M (Outcome A) :=
  let! _ := emit (TryUntilCall policy) in
  attempts (maxRetries policy) (retryIntervalMs policy) action.
End TryUntil.

#[global] Arguments attempts : simpl never.
End Util.

(** ** lib/bigIq5_2LicenseProvider.js *)

Module BigIq5_2LicenseProvider.

(** One entry of the pool listing ([?$select=uuid,name]). *)
Record Pool := { pool_name : JsValue; pool_id : JsValue }.

Record LicenseState := {
  licenseStartDateTime : Z;
  licenseEndDateTime : Z;
  registrationKey : string }.

(** One offering of a pool.  The two timestamps are instants on the clock
  that [new Date()] reads, in its unit, so that [<] compares them as
  numbers. *)
Record Offering := { licenseState : LicenseState }.

(** The pool listing is tested with [Array.isArray]; a value that is not
  an array only appears rendered in an error message. *)
Inductive PoolListing :=
  | PoolArray (pools : list Pool)
  | NotAnArray (rendered : string).

(** The members of an offering: an array, or any other value. *)
Inductive MemberListing :=
  | MemberArray (members : list JsValue)
  | NotMembers.

Record Assignment := { state : JsValue; uuid : JsValue }.

(** [bigIqControl.list], by the shape of document each path answers
  with.  The offering listing is [None] when it is a falsy value. *)
Record IControl (W : Type) := {
  listPools : string -> W -> Reply PoolListing * W;
  listOfferings : string -> W -> Reply (option (list Offering)) * W;
  listMembers : string -> W -> Reply MemberListing * W;
  listAssignment : string -> W -> Reply Assignment * W }.
Arguments listPools {W} _ _ _.
Arguments listOfferings {W} _ _ _.
Arguments listMembers {W} _ _ _.
Arguments listAssignment {W} _ _ _.

(** The promise returned by [getUnmanagedDeviceLicense], and the promise
  chain the last handler builds without returning it, when it builds
  one. *)
Record Run := {
  returned : Outcome JsValue;
  floating : option (Outcome JsValue) }.

Definition LICENSE_PATH : string :=
  "/cm/device/licensing/pool/regkey/licenses/".

(** The [for] loop over the pool listing: [poolUuid] is the [id] of the
  first pool named [poolName], and stays [undefined] without one. *)
Fixpoint findPool (response : list Pool) (poolName : string) : JsValue :=
  match response with
  | [] => JUndefined
  | pool :: rest =>
      if strict_eq (pool_name pool) poolName then pool_id pool
      else findPool rest poolName
  end.

Section Provider.
Context {W : Type} (bigIqControl : IControl W).

Section Scan.
Variables (poolUuid : JsValue) (licenses : list Offering) (now : Z).

Definition membersPath (license : Offering) : string :=
  LICENSE_PATH +:+ to_string poolUuid +:+ "/offerings/"
    +:+ registrationKey (licenseState license) +:+ "/members".

Definition inWindow (license : Offering) : bool :=
  (licenseStartDateTime (licenseState license) <? now)%Z
  && (now <? licenseEndDateTime (licenseState license))%Z.

(** [findValidLicense (index)].  The test [index > licenses.length - 1]
  is on integers; past it [licenses[index]] is defined, so the
  [None] branch is never taken. *)
Equations? findValidLicense (index : nat) (w : W)
    : Outcome string * W * list Event
    by wf (length licenses - index) lt :=
  findValidLicense index w
    with decide (Z.of_nat index > Z.of_nat (length licenses) - 1)%Z := {
    | left _ => (Rejected NoReason, w, []);
    | right _ with licenses !! index := {
      | None => (Rejected (Error "TypeError"), w, []);
      | Some license with inWindow license := {
        | false => findValidLicense (S index) w;
        | true with listMembers bigIqControl (membersPath license) w := {
          | (Ok (MemberArray []), w1) =>
              (Resolved (registrationKey (licenseState license)), w1,
               [ListCall (membersPath license)]);
          | (Ok _, w1) =>
              after_events [ListCall (membersPath license)]
                (findValidLicense (S index) w1);
          | (Fail err, w1) =>
              after_events [ListCall (membersPath license)]
                (findValidLicense (S index) w1) } } } }.
Proof. all: lia. Qed.

(** The two checks of the scan on one offering, in the world in
  which the scan reaches it: the validity window contains [now],
  and the membership listing is an array of length zero. *)
Definition memberless (license : Offering) (w : W) : bool :=
  match (listMembers bigIqControl (membersPath license) w).1 with
  | Ok (MemberArray []) => true
  | _ => false
  end.

Definition passes (license : Offering) (w : W) : bool :=
  inWindow license && memberless license w.

(** The world after the scan has examined one offering, and the calls
  it made for it: the members are only listed inside the window. *)
Definition visit (w : W) (license : Offering) : W :=
  if inWindow license
  then (listMembers bigIqControl (membersPath license) w).2
  else w.

Definition visitCalls (license : Offering) : list Event :=
  if inWindow license then [ListCall (membersPath license)] else [].

(** The world in which a scan started at [index] in world [w] reaches
  the offering [n] places further. *)
Definition worldFrom (index n : nat) (w : W) : W :=
  foldl visit w (take n (drop index licenses)).

Definition worldAt (i : nat) (w : W) : W := worldFrom 0 i w.

End Scan.

Definition assignmentPath (poolUuid licenseUuid : JsValue) : string :=
  "/cm/shared/licensing/pools/" +:+ to_string poolUuid
    +:+ "/members/" +:+ to_string licenseUuid.

(** [isLicensed]: its deferred is resolved on [LICENSED], rejected with
  no value on any other state, and left unsettled when the listing
  itself fails (the inner promise has no rejection handler). *)
Definition isLicensed (poolUuid licenseUuid : JsValue)
  : M (Outcome unit) :=
  let path := assignmentPath poolUuid licenseUuid in
  let! o := call (ListCall path) (listAssignment bigIqControl path) in
  ret match o with
      | Resolved response =>
          if strict_eq (state response) "LICENSED" then Resolved tt
          else Rejected NoReason
      | Rejected _ => Pending
      | Pending => Pending
      end.

(** The last [then] handler.  Its [response] is what the scan resolved
  with, a registration key.  In the waiting branch the chain built on
  [util.tryUntil] is not returned: the handler falls off its end and
  returns [undefined]. *)
Definition awaitLicensed (poolUuid : JsValue) (response : string)
  : M Run :=
  if truthy (JString response) then
    let state := string_prop response "state" in
    let licenseUuid := string_prop response "uuid" in
    if strict_eq state "LICENSED" then
      ret {| returned := Resolved JUndefined; floating := None |}
    else
      let! o := Util.tryUntil {| maxRetries := 40; retryIntervalMs := 5000 |}
                  (isLicensed poolUuid licenseUuid) in
      let chain :=
        match o with
        | Resolved _ => Resolved JUndefined
        | Rejected _ =>
            Rejected (Error "Giving up on licensing via BIG-IQ.")
        | Pending => Pending
        end in
      ret {| returned := Resolved JUndefined; floating := Some chain |}
  else
    ret {| returned := Resolved JUndefined; floating := None |}.

(** The first two [then] handlers: pool resolution, then the offering
  listing and the scan.  [poolUuid] is the variable they share with
  the last handler. *)
Definition selectLicense (poolName : string) (now : Z)
  : M (Outcome (JsValue * string)) :=
  let poolsPath := LICENSE_PATH +:+ "?$select=uuid,name" in
  and_then (call (ListCall poolsPath) (listPools bigIqControl poolsPath))
    (fun response =>
       match response with
       | PoolArray pools =>
           let poolUuid := findPool pools poolName in
           if truthy poolUuid then
             let offeringsPath :=
               LICENSE_PATH +:+ to_string poolUuid +:+ "/offerings" in
             and_then
               (call (ListCall offeringsPath)
                  (listOfferings bigIqControl offeringsPath))
               (fun response =>
                  let licenses := default [] response in
                  and_then (findValidLicense poolUuid licenses now 0)
                    (fun key => ret (Resolved (poolUuid, key))))
           else
             ret (Rejected
                    (Error ("No license pool found with name: "
                              +:+ poolName)))
       | NotAnArray rendered =>
           ret (Rejected
                  (Error ("Error getting license pools: " +:+ rendered)))
       end).

Definition getUnmanagedDeviceLicense
  (poolName bigIpMgmtAddress : string) (now : Z) : M Run :=
  let! selected := selectLicense poolName now in
  match selected with
  | Resolved (poolUuid, response) => awaitLicensed poolUuid response
  | Rejected r => ret {| returned := Rejected r; floating := None |}
  | Pending => ret {| returned := Pending; floating := None |}
  end.

End Provider.
End BigIq5_2LicenseProvider.

(** ** Onboarding operations (lib/bigIpOnboard.js) *)

Module BigIpOnboard.

(** The result of a reconciliation. *)
Inductive Applied :=
  | NoOp (message : string)
  | AppliedPatch (patch : gmap string Value).

(** The REST capability the operations consume, by the shape of document
  each listing answers with: the name of the device, the names of the
  existing users, the fields of a settings resource. *)
Record IControl (W : Type) := {
  listDevice : string -> W -> Reply string * W;
  listUsers : string -> W -> Reply (list string) * W;
  listResource : string -> W -> Reply (gmap string Value) * W;
  create :
    string -> gmap string Value -> W -> Reply (gmap string Value) * W;
  modify :
    string -> gmap string Value -> W -> Reply (gmap string Value) * W }.
Arguments listDevice {W} _ _ _.
Arguments listUsers {W} _ _ _.
Arguments listResource {W} _ _ _.
Arguments create {W} _ _ _ _.
Arguments modify {W} _ _ _ _.

(** Modelled from the spec: the subset of the desired fields whose value
  differs from, or is absent in, the current state (the reconciliation
  code of [lib/bigIpOnboard.js] is not at hand). *)
Definition differing (desired current : gmap string Value)
  : gmap string Value :=
  filter (fun field => current !! field.1 <> Some field.2) desired.

(** Modelled from the spec: what a [modify] does to the resource it
  addresses, which is kept by the control plane.  The fields of the
  body replace the current ones, every other field is preserved. *)
Definition modified (body current : gmap string Value)
  : gmap string Value :=
  body ∪ current.

(** The body of the [create] that installs a new user, as
  [testUpdateUser.testCreate] reads it. *)
Definition newUser (user password role : string) (shell : option string)
  : gmap string Value :=
  let body : gmap string Value :=
    {[ "name" := VStr user;
       "password" := VStr password;
       "partition-access" :=
         VObj {[ "all-partitions" := VObj {[ "role" := VStr role ]} ]} ]} in
  match shell with
  | Some sh => <[ "shell" := VStr sh ]> body
  | None => body
  end.

(** The body of the [modify] that updates an existing user, as
  [testUpdateUser.testUpdate] reads it. *)
Definition userUpdate (password : string) (shell : option string)
  : gmap string Value :=
  let body : gmap string Value := {[ "password" := VStr password ]} in
  match shell with
  | Some sh => <[ "shell" := VStr sh ]> body
  | None => body
  end.

(** [response.indexOf (needle) !== -1] *)
Definition contains (needle response : string) : bool :=
  match String.index 0 needle response with
  | Some _ => true
  | None => false
  end.

(** The body of the rename command, as [testHostName.testChange] reads
  it. *)
Definition rename (oldName newName : string) : gmap string Value :=
  {[ "command" := VStr "mv"; "name" := VStr oldName;
     "target" := VStr newName ]}.

Section Onboard.
Context {W : Type} (icontrol : IControl W).

(** Modelled from the spec: the reconciliation primitive
  [applyIfDifferent] of the onboarding library, whose code is not at
  hand.  It fetches the current state with [list], computes the
  desired fields that differ, returns [NoOp] without any mutation
  when there is none, and otherwise issues a single [modify] with
  exactly the differing fields.  A failure of either call propagates
  unchanged. *)
Definition applyIfDifferent (resourcePath : string)
  (desiredFields : gmap string Value) : M (Outcome Applied) :=
  and_then
    (call (ListCall resourcePath) (listResource icontrol resourcePath))
    (fun current =>
       let patch := differing desiredFields current in
       if decide (patch = ∅) then
         ret (Resolved (NoOp "already matches desired value"))
       else
         and_then
           (call (ModifyCall resourcePath patch)
              (modify icontrol resourcePath patch))
           (fun _ => ret (Resolved (AppliedPatch patch)))).

(** Modelled from the spec: [onboard.hostname], whose code is not at
  hand; the paths and bodies are those the tests expect.  The name of
  the device is fetched; when the new hostname equals it the result
  is a no-op whose message notes that it matches; otherwise the
  rename-style [create] is issued on the device resource, and then
  the [modify] of the global settings that carries the new
  hostname.  Each call is awaited before the next begins. *)
Definition hostname (newHostname : string) : M (Outcome Applied) :=
  and_then
    (call (ListCall "/tm/cm/device") (listDevice icontrol "/tm/cm/device"))
    (fun oldHostname =>
       if String.eqb oldHostname newHostname then
         ret (Resolved (NoOp "hostname already matches desired value"))
       else
         let mv := rename oldHostname newHostname in
         let settings : gmap string Value :=
           {[ "hostname" := VStr newHostname ]} in
         and_then
           (call (CreateCall "/tm/cm/device" mv)
              (create icontrol "/tm/cm/device" mv))
           (fun _ =>
              and_then
                (call (ModifyCall "/tm/sys/global-settings" settings)
                   (modify icontrol "/tm/sys/global-settings" settings))
                (fun _ => ret (Resolved (AppliedPatch settings))))).

(** Modelled from the spec: [onboard.updateUser], whose code is not at
  hand; the paths and bodies are those the tests expect.  The
  existing users are looked up; an existing user is updated by a
  [modify] that carries neither name nor partition access; a new
  user is installed by a [create] that carries the role; a new user
  without a role is a configuration error, and nothing is issued. *)
Definition updateUser (user password : string)
  (role shell : option string) : M (Outcome (gmap string Value)) :=
  and_then
    (call (ListCall "/tm/auth/user") (listUsers icontrol "/tm/auth/user"))
    (fun users =>
       if decide (user ∈ users) then
         let body := userUpdate password shell in
         call (ModifyCall ("/tm/auth/user/" +:+ user) body)
           (modify icontrol ("/tm/auth/user/" +:+ user) body)
       else
         match role with
         | Some r =>
             let body := newUser user password r shell in
             call (CreateCall "/tm/auth/user" body)
               (create icontrol "/tm/auth/user" body)
         | None =>
             ret (Rejected
                    (ConfigurationError
                       ("Creating a user requires a role: " +:+ user)))
         end).

End Onboard.
End BigIpOnboard.

(** ** Concrete control planes *)

Module Examples.

Import BigIq5_2LicenseProvider.

Definition offering (start finish : Z) (key : string) : Offering :=
  {| licenseState :=
       {| licenseStartDateTime := start;
          licenseEndDateTime := finish;
          registrationKey := key |} |}.

(** A BIG-IQ with one pool, [pool1], of three offerings: one expired, one
  already claimed, one free.  The world counts the calls answered; the
  assignment never leaves the [PENDING] state. *)
Definition inventory : list Offering :=
  [ offering 0 10 "EXPIRED"; offering 0 100 "CLAIMED"; offering 0 100 "FREE" ].

(** The inventory once the free offering is gone. *)
Definition spent : list Offering :=
  [ offering 0 10 "EXPIRED"; offering 0 100 "CLAIMED" ].

(** The identifier of [pool1]. *)
Definition u1 : JsValue := JString "u1".

Definition claimedPath : string :=
  "/cm/device/licensing/pool/regkey/licenses/u1/offerings/CLAIMED/members".

Definition membersOf (path : string) : Reply MemberListing :=
  if String.eqb path claimedPath
  then Ok (MemberArray [JString "10.0.0.9"])
  else Ok (MemberArray []).

Definition bigIq : IControl nat := {|
  listPools := fun _ w =>
    (Ok (PoolArray [ {| pool_name := JString "pool1";
                        pool_id := JString "u1" |} ]), S w);
  listOfferings := fun _ w => (Ok (Some inventory), S w);
  listMembers := fun path w => (membersOf path, S w);
  listAssignment := fun _ w =>
    (Ok {| state := JString "PENDING"; uuid := JString "a1" |}, S w) |}.

(** The same BIG-IQ when every membership listing is broken: the claimed
  offering answers with a document that is not an array, the others fail. *)
Definition brokenMembers : IControl nat := {|
  listPools := listPools bigIq;
  listOfferings := listOfferings bigIq;
  listMembers := fun path w =>
    (if String.eqb path claimedPath
     then Ok NotMembers else Fail (Error "ECONNRESET"), S w);
  listAssignment := listAssignment bigIq |}.

Definition isPoll (e : Event) : bool :=
  match e with
  | ListCall path =>
      String.eqb path "/cm/shared/licensing/pools/u1/members/undefined"
  | _ => false
  end.

Definition isWait (e : Event) : bool :=
  match e with
  | Wait ms => N.eqb ms 5000
  | _ => false
  end.

(** A device in the manner of the mock of the onboarding tests: the world
  is the list of requests received, latest first; every call succeeds
  with an empty document. *)
Definition device (name : string) (users : list string)
  (settings : gmap string Value) : BigIpOnboard.IControl (list Event) := {|
  BigIpOnboard.listDevice := fun path w => (Ok name, ListCall path :: w);
  BigIpOnboard.listUsers := fun path w => (Ok users, ListCall path :: w);
  BigIpOnboard.listResource :=
    fun path w => (Ok settings, ListCall path :: w);
  BigIpOnboard.create :=
    fun path body w => (Ok ∅, CreateCall path body :: w);
  BigIpOnboard.modify :=
    fun path body w => (Ok ∅, ModifyCall path body :: w) |}.

(** A BIG-IQ that answers every pool listing, offering listing and poll
    with a fixed reply; the members are those of [bigIq]. *)
Definition bigIqWith (pools : Reply PoolListing)
  (offerings : Reply (option (list Offering)))
  (assignment : Reply Assignment) : IControl nat := {|
  listPools := fun _ w => (pools, S w);
  listOfferings := fun _ w => (offerings, S w);
  listMembers := fun path w => (membersOf path, S w);
  listAssignment := fun _ w => (assignment, S w) |}.

Definition pool1 : Pool :=
  {| pool_name := JString "pool1"; pool_id := JString "u1" |}.

(** A pool listing in which the first pool named [pool1] has no id. *)
Definition shadowedPools : list Pool :=
  [ {| pool_name := JString "pool0"; pool_id := JString "u0" |};
    {| pool_name := JString "pool1"; pool_id := JUndefined |};
    pool1 ].

Definition pending : Assignment :=
  {| state := JString "PENDING"; uuid := JString "a1" |}.

Definition licensed : Assignment :=
  {| state := JString "LICENSED"; uuid := JString "a1" |}.

(** Offerings that come after the free one in a longer inventory. *)
Definition restocked : list Offering :=
  [ offering 0 100 "LATER"; offering 0 10 "OLD" ].

Definition testDevice (name : string) (users : list string)
  : BigIpOnboard.IControl (list Event) :=
  device name users ∅.

(** The minimal patch of the design document, [{a:1,b:2}] against
  [{a:1,b:9}], on a resource that has one more field. *)
Definition desiredSettings : gmap string Value :=
  {[ "a" := VNum 1; "b" := VNum 2 ]}.

Definition settings : gmap string Value :=
  {[ "a" := VNum 1; "b" := VNum 9; "c" := VStr "kept" ]}.

(** The provisioning of [testProvision.testBasic]: the desired levels, and
  the levels the device reports. *)
Definition provisionSettings : gmap string Value :=
  {[ "mod1" := VStr "level2"; "mod2" := VStr "level2" ]}.

Definition provisioned : gmap string Value :=
  {[ "mod1" := VStr "level1"; "mod2" := VStr "level2" ]}.

End Examples.

Module ScanFacts.
Import BigIq5_2LicenseProvider.
Section Facts.
Context {W : Type} (bigIqControl : IControl W).
Variables (poolUuid : JsValue) (licenses : list Offering) (now : Z).

Abbreviation scan := (findValidLicense bigIqControl poolUuid licenses now).
Abbreviation key license := (registrationKey (licenseState license)).
Abbreviation path license := (membersPath poolUuid license).
Abbreviation passing := (passes bigIqControl poolUuid now).
Abbreviation visiting := (visit bigIqControl poolUuid now).
Abbreviation calls := (visitCalls poolUuid now).
Abbreviation world := (worldFrom bigIqControl poolUuid licenses now).

Lemma scan_past_end index w :
  length licenses <= index -> scan index w = (Rejected NoReason, w, []).
Proof.
  intros Hle. simp findValidLicense.
  destruct (decide _) as [Hgt | Hngt]; simpl; [done | lia].
Qed.

Lemma scan_unfold index w license :
  licenses !! index = Some license ->
  scan index w =
    if inWindow now license then
      match listMembers bigIqControl (path license) w with
      | (Ok (MemberArray []), w1) =>
          (Resolved (key license), w1, [ListCall (path license)])
      | (_, w1) =>
          after_events [ListCall (path license)] (scan (S index) w1)
      end
    else scan (S index) w.
Proof.
  intros Hlk. rewrite findValidLicense_equation_1.
  destruct (decide _) as [Hgt | Hngt]; simpl.
  - apply lookup_lt_Some in Hlk. lia.
  - rewrite Hlk. simpl. destruct (inWindow now license); simpl; [|done].
    destruct (listMembers _ _ _) as [[[[|m ms]|]|err] w1]; done.
Qed.

Lemma scan_hit index w license :
  licenses !! index = Some license ->
  passing license w = true ->
  scan index w =
    (Resolved (key license), visiting w license, calls license).
Proof.
  intros Hlk Hp. rewrite (scan_unfold _ _ _ Hlk).
  unfold passes, memberless, visit, visitCalls in *.
  destruct (inWindow now license); simpl in *; [|done].
  destruct (listMembers _ _ _) as [[[[|m ms]|]|err] w1]; done.
Qed.

Lemma scan_skip index w license :
  licenses !! index = Some license ->
  passing license w = false ->
  scan index w =
    after_events (calls license) (scan (S index) (visiting w license)).
Proof.
  intros Hlk Hp. rewrite (scan_unfold _ _ _ Hlk).
  unfold passes, memberless, visit, visitCalls in *.
  destruct (inWindow now license); simpl in *.
  - destruct (listMembers _ _ _) as [[[[|m ms]|]|err] w1]; done.
  - by destruct (scan _ _) as [[? ?] ?].
Qed.

Lemma world_step index n w license :
  licenses !! index = Some license ->
  world index (S n) w = world (S index) n (visiting w license).
Proof.
  intros Hlk. unfold worldFrom. by rewrite (drop_S _ _ _ Hlk).
Qed.

(** Either some offering is the first to pass both checks, and the scan
  resolves with its key, or none passes and the scan rejects. *)
Lemma scan_dichotomy m : forall index w,
  length licenses - index = m ->
  (exists n license,
      licenses !! (index + n) = Some license
      /\ passing license (world index n w) = true
      /\ (forall j lj, j < n -> licenses !! (index + j) = Some lj ->
            passing lj (world index j w) = false)
      /\ scan index w =
           (Resolved (key license),
            visiting (world index n w) license,
            flat_map calls (take (S n) (drop index licenses))))
  \/ ((forall j lj, licenses !! (index + j) = Some lj ->
         passing lj (world index j w) = false)
      /\ scan index w =
           (Rejected NoReason,
            world index (length licenses - index) w,
            flat_map calls (drop index licenses))).
Proof.
  induction m as [|m IH]; intros index w Hm.
  - right. split.
    + intros j lj Hlk. apply lookup_lt_Some in Hlk. lia.
    + rewrite scan_past_end by lia. unfold worldFrom.
      rewrite drop_ge by lia. by rewrite take_nil.
  - destruct (lookup_lt_is_Some_2 licenses index) as [l0 Hl0]; [lia|].
    destruct (passing l0 w) eqn:Hp.
    + left. exists 0, l0. rewrite Nat.add_0_r. split; [done|].
      split; [done|]. split; [lia|].
      rewrite (scan_hit _ _ _ Hl0 Hp), (drop_S _ _ _ Hl0). simpl.
      by rewrite app_nil_r.
    + rewrite (scan_skip _ _ _ Hl0 Hp).
      destruct (IH (S index) (visiting w l0)) as
        [(n & license & Hlk & Hpass & Hfirst & Hscan) | [Hnone Hscan]];
        [lia| |].
      * left. exists (S n), license.
        replace (index + S n) with (S index + n) by lia.
        split; [done|]. rewrite (world_step _ _ _ _ Hl0).
        split; [done|]. split.
        -- intros [|j] lj Hj Hlj.
           ++ rewrite Nat.add_0_r in Hlj. by simplify_eq.
           ++ rewrite (world_step _ _ _ _ Hl0). apply Hfirst; [lia|].
              by replace (S index + j) with (index + S j) by lia.
        -- rewrite Hscan. simpl. by rewrite (drop_S _ _ _ Hl0).
      * right. split.
        -- intros [|j] lj Hlj.
           ++ rewrite Nat.add_0_r in Hlj. by simplify_eq.
           ++ rewrite (world_step _ _ _ _ Hl0). apply Hnone.
              by replace (S index + j) with (index + S j) by lia.
        -- rewrite Hscan. simpl. rewrite (drop_S _ _ _ Hl0). simpl.
           replace (length licenses - index)
             with (S (length licenses - S index)) by lia.
           by rewrite (world_step _ _ _ _ Hl0).
Qed.

Lemma scan_trace index w e :
  e ∈ (scan index w).2 -> exists p, e = ListCall p.
Proof.
  assert (Hcalls : forall ls,
             e ∈ flat_map calls ls -> exists p, e = ListCall p).
  { intros ls [l [_ Hin]]%list_elem_of_In%in_flat_map.
    unfold visitCalls in Hin. destruct (inWindow now l); simpl in Hin.
    - destruct Hin as [<-|[]]. eauto.
    - destruct Hin. }
  destruct (scan_dichotomy _ index w eq_refl) as
    [(n & license & _ & _ & _ & ->) | [_ ->]]; simpl; apply Hcalls.
Qed.


Lemma passes_inv license w :
  passing license w = true ->
  (licenseStartDateTime (licenseState license) < now)%Z
  /\ (now < licenseEndDateTime (licenseState license))%Z
  /\ listMembers bigIqControl (path license) w
     = (Ok (MemberArray []), visiting w license).
Proof.
  unfold passes, memberless, visit, inWindow.
  intros [[H1 H2]%andb_prop Hm]%andb_prop.
  rewrite H1, H2. simpl.
  destruct (listMembers _ _ _) as [[[[|m ms]|]|err] w1]; simpl in *; try done.
  repeat split; lia.
Qed.

End Facts.

(** The scan only reads the membership handler of the client. *)
Lemma scan_ext {W} (c1 c2 : IControl W) poolUuid licenses now :
  (forall p w, listMembers c1 p w = listMembers c2 p w) ->
  forall m index w,
    length licenses - index = m ->
    findValidLicense c1 poolUuid licenses now index w
    = findValidLicense c2 poolUuid licenses now index w.
Proof.
  intros Hsame. induction m as [|m IH]; intros index w Hm.
  - by rewrite !scan_past_end by lia.
  - destruct (lookup_lt_is_Some_2 licenses index) as [l0 Hl0]; [lia|].
    rewrite !(scan_unfold _ _ _ _ _ _ _ Hl0), Hsame.
    rewrite !IH by lia.
    destruct (inWindow now l0); [|done].
    destruct (listMembers c2 _ w) as [[[[|? ?]|]|?] w1]; try done;
      by rewrite IH by lia.
Qed.

End ScanFacts.

(** ** The offering scan *)

Module LicenseLeaseSelector.
Import BigIq5_2LicenseProvider ScanFacts.

(** C1.  The scan resolves with a registration key only if that key is the
  one of an offering of the inventory whose start is strictly before
  [now], whose end is strictly after [now], and whose membership listing,
  fetched when the scan reached it, was an empty array. *)
Theorem scan_selects_only_eligible {W} (bigIqControl : IControl W)
  (poolUuid : JsValue) (licenses : list Offering) (now : Z)
  (w w' : W) (key : string) (t : list Event) :
  findValidLicense bigIqControl poolUuid licenses now 0 w
    = (Resolved key, w', t) ->
  exists i license,
    licenses !! i = Some license
    /\ registrationKey (licenseState license) = key
    /\ (licenseStartDateTime (licenseState license) < now)%Z
    /\ (now < licenseEndDateTime (licenseState license))%Z
    /\ listMembers bigIqControl (membersPath poolUuid license)
         (worldAt bigIqControl poolUuid licenses now i w)
       = (Ok (MemberArray []), w').
Proof.
  intros Hscan.
  destruct (scan_dichotomy bigIqControl poolUuid licenses now _ 0 w eq_refl)
    as [(n & license & Hlk & Hpass & _ & Heq) | [_ Heq]];
    rewrite Hscan in Heq; [|done].
  injection Heq as -> -> ->.
  apply passes_inv in Hpass as (Hstart & Hend & Hmembers).
  exists n, license. by repeat split.
Qed.

(** C2.  First fit, in the order of the inventory: when some offering is
  the first to pass both checks the scan resolves with its key; a key the
  scan resolves with is the one of an offering that passes both checks
  while every earlier offering fails one of them; and the result is a
  function of the inventory, the clock and the membership answers. *)
Theorem scan_first_fit {W} (bigIqControl : IControl W)
  (poolUuid : JsValue) (licenses : list Offering) (now : Z) (w : W) :
  let scan := findValidLicense bigIqControl poolUuid licenses now in
  let passing i license :=
    passes bigIqControl poolUuid now license
      (worldAt bigIqControl poolUuid licenses now i w) in
  (forall i license,
      licenses !! i = Some license ->
      passing i license = true ->
      (forall j earlier, j < i -> licenses !! j = Some earlier ->
         passing j earlier = false) ->
      (scan 0 w).1.1 = Resolved (registrationKey (licenseState license)))
  /\ (forall key w' t,
        scan 0 w = (Resolved key, w', t) ->
        exists i license,
          licenses !! i = Some license
          /\ key = registrationKey (licenseState license)
          /\ passing i license = true
          /\ forall j earlier, j < i -> licenses !! j = Some earlier ->
               passing j earlier = false)
  /\ (forall other : IControl W,
        (forall p w0, listMembers other p w0 = listMembers bigIqControl p w0) ->
        findValidLicense other poolUuid licenses now 0 w = scan 0 w).
Proof.
  intros scan passing. subst scan passing. unfold worldAt.
  pose proof (scan_dichotomy bigIqControl poolUuid licenses now _ 0 w eq_refl)
    as Hd. simpl in Hd.
  split; [|split].
  - intros i license Hlk Hpass Hfirst.
    destruct Hd as [(n & first & Hn & Hpn & Hfn & ->) | [Hnone _]].
    + simpl. destruct (Nat.lt_trichotomy n i) as [Hlt | [-> | Hgt]].
      * rewrite (Hfirst _ _ Hlt Hn) in Hpn. done.
      * by simplify_eq.
      * rewrite (Hfn _ _ Hgt Hlk) in Hpass. done.
    + rewrite (Hnone _ _ Hlk) in Hpass. done.
  - intros key w' t Hscan.
    destruct Hd as [(n & first & Hn & Hpn & Hfn & Heq) | [_ Heq]];
      rewrite Hscan in Heq; [|done].
    injection Heq as -> -> ->. exists n, first. by repeat split.
  - intros other Hsame. by apply scan_ext with (m := length licenses - 0).
Qed.

(** C4, as the code has it.  When no offering passes both checks the scan
  is settled by a rejection, after the whole inventory was examined; the
  rejection carries no value. *)
Theorem scan_without_candidate_rejects {W} (bigIqControl : IControl W)
  (poolUuid : JsValue) (licenses : list Offering) (now : Z) (w : W) :
  (forall i license,
      licenses !! i = Some license ->
      passes bigIqControl poolUuid now license
        (worldAt bigIqControl poolUuid licenses now i w) = false) ->
  findValidLicense bigIqControl poolUuid licenses now 0 w
  = (Rejected NoReason,
     worldAt bigIqControl poolUuid licenses now (length licenses) w,
     flat_map (visitCalls poolUuid now) licenses).
Proof.
  intros Hnone. unfold worldAt in *.
  destruct (scan_dichotomy bigIqControl poolUuid licenses now _ 0 w eq_refl)
    as [(n & first & Hn & Hpn & _) | [_ Heq]].
  - simpl in Hn. rewrite (Hnone _ _ Hn) in Hpn. done.
  - by rewrite Heq, Nat.sub_0_r.
Qed.

(** C10.  Inside the window, a membership listing that fails, or that
  answers with a value that is not an array, does not settle the scan:
  the scan goes on with the next offering, in the world the call left. *)
Theorem scan_skips_unreadable_membership {W} (bigIqControl : IControl W)
  (poolUuid : JsValue) (licenses : list Offering) (now : Z)
  (index : nat) (license : Offering) (w w1 : W) (reply : Reply MemberListing) :
  licenses !! index = Some license ->
  inWindow now license = true ->
  listMembers bigIqControl (membersPath poolUuid license) w = (reply, w1) ->
  (reply = Ok NotMembers \/ exists err, reply = Fail err) ->
  findValidLicense bigIqControl poolUuid licenses now index w
  = after_events [ListCall (membersPath poolUuid license)]
      (findValidLicense bigIqControl poolUuid licenses now (S index) w1).
Proof.
  intros Hlk Hwin Hcall Hreply.
  rewrite (scan_unfold _ _ _ _ _ _ _ Hlk), Hwin, Hcall.
  by destruct Hreply as [-> | [err ->]].
Qed.

Import Examples.

Lemma scan_selects_only_eligible_witness :
  findValidLicense bigIq u1 inventory 50 0 0%nat
    = (Resolved "FREE", 2%nat,
       [ListCall (membersPath u1 (offering 0 100 "CLAIMED"));
        ListCall (membersPath u1 (offering 0 100 "FREE"))])
  /\ exists i license,
      inventory !! i = Some license
      /\ registrationKey (licenseState license) = "FREE"
      /\ (licenseStartDateTime (licenseState license) < 50)%Z
      /\ (50 < licenseEndDateTime (licenseState license))%Z
      /\ listMembers bigIq (membersPath u1 license)
           (worldAt bigIq u1 inventory 50 i 0%nat)
         = (Ok (MemberArray []), 2%nat).
Proof.
  split; [reflexivity|].
  apply (scan_selects_only_eligible bigIq u1 inventory 50 0%nat 2%nat "FREE"
           [ListCall (membersPath u1 (offering 0 100 "CLAIMED"));
            ListCall (membersPath u1 (offering 0 100 "FREE"))]).
  reflexivity.
Defined.

Lemma scan_first_fit_witness :
  inventory !! 2%nat = Some (offering 0 100 "FREE")
  /\ passes bigIq u1 50 (offering 0 100 "FREE")
       (worldAt bigIq u1 inventory 50 2 0%nat) = true
  /\ (forall j earlier,
        j < 2 -> inventory !! j = Some earlier ->
        passes bigIq u1 50 earlier (worldAt bigIq u1 inventory 50 j 0%nat)
        = false)
  /\ (findValidLicense bigIq u1 inventory 50 0 0%nat).1.1 = Resolved "FREE".
Proof.
  assert (Hearlier : forall j earlier,
             j < 2 -> inventory !! j = Some earlier ->
             passes bigIq u1 50 earlier
               (worldAt bigIq u1 inventory 50 j 0%nat) = false).
  { intros [|[|j]] earlier Hj Hlk; [| |lia];
      injection Hlk as <-; reflexivity. }
  split; [reflexivity|]. split; [reflexivity|]. split; [exact Hearlier|].
  exact (proj1 (scan_first_fit bigIq u1 inventory 50 0%nat)
           2%nat (offering 0 100 "FREE") eq_refl eq_refl Hearlier).
Defined.

Lemma spent_inventory_has_no_candidate i license :
  spent !! i = Some license ->
  passes bigIq u1 50 license (worldAt bigIq u1 spent 50 i 0%nat) = false.
Proof.
  destruct i as [|[|i]]; intros Hlk; [| |done]; injection Hlk as <-;
    reflexivity.
Defined.

(** C4, as stated, fails on the spent inventory: no offering passes both
  checks, and the rejection of the scan carries no error value. *)
Lemma scan_rejects_without_error_value :
  (forall i license,
      spent !! i = Some license ->
      passes bigIq u1 50 license (worldAt bigIq u1 spent 50 i 0%nat) = false)
  /\ ~ (exists reason,
          reason <> NoReason
          /\ (findValidLicense bigIq u1 spent 50 0 0%nat).1.1
             = Rejected reason).
Proof.
  split; [exact spent_inventory_has_no_candidate|].
  intros (reason & Hreason & Heq). vm_compute in Heq. congruence.
Qed.

Lemma scan_without_candidate_rejects_witness :
  (forall i license,
      spent !! i = Some license ->
      passes bigIq u1 50 license (worldAt bigIq u1 spent 50 i 0%nat) = false)
  /\ findValidLicense bigIq u1 spent 50 0 0%nat
     = (Rejected NoReason,
        worldAt bigIq u1 spent 50 (length spent) 0%nat,
        flat_map (visitCalls u1 50) spent).
Proof.
  split; [exact spent_inventory_has_no_candidate|].
  exact (scan_without_candidate_rejects bigIq u1 spent 50 0%nat
           spent_inventory_has_no_candidate).
Defined.

Lemma scan_skips_unreadable_membership_witness :
  inventory !! 1%nat = Some (offering 0 100 "CLAIMED")
  /\ inWindow 50 (offering 0 100 "CLAIMED") = true
  /\ listMembers brokenMembers (membersPath u1 (offering 0 100 "CLAIMED"))
       0%nat = (Ok NotMembers, 1%nat)
  /\ findValidLicense brokenMembers u1 inventory 50 1 0%nat
     = after_events [ListCall (membersPath u1 (offering 0 100 "CLAIMED"))]
         (findValidLicense brokenMembers u1 inventory 50 2 1%nat).
Proof.
  split; [reflexivity|]. split; [reflexivity|]. split; [reflexivity|].
  apply (scan_skips_unreadable_membership brokenMembers u1 inventory 50
           1%nat (offering 0 100 "CLAIMED") 0%nat 1%nat (Ok NotMembers));
    [reflexivity | reflexivity | reflexivity | left; reflexivity].
Defined.

End LicenseLeaseSelector.

(** ** Pool resolution and the wait for the license *)

Module LicensingWorkflow.
Import BigIq5_2LicenseProvider ScanFacts.

Lemma findPool_unknown (pools : list Pool) (poolName : string) :
  (forall pool, pool ∈ pools -> pool_name pool <> JString poolName) ->
  findPool pools poolName = JUndefined.
Proof.
  induction pools as [|pool pools IH]; intros Hnone; simpl; [done|].
  assert (Hhead : strict_eq (pool_name pool) poolName = false).
  { specialize (Hnone pool (list_elem_of_here _ _)).
    destruct (pool_name pool) as [|s]; simpl; [done|].
    apply String.eqb_neq. congruence. }
  rewrite Hhead. apply IH. intros other Hin. apply Hnone. by right.
Qed.

(** Case analysis on the membership of an event in a trace. *)
Ltac in_trace H :=
  repeat (apply elem_of_cons in H as [-> | H]
          || apply elem_of_app in H as [H | H]
          || (apply elem_of_nil in H; destruct H)).

Section Traces.
Context {W : Type} (bigIqControl : IControl W).

Lemma selectLicense_trace poolName now w e :
  e ∈ (selectLicense bigIqControl poolName now w).2 -> isTryUntil e = false.
Proof.
  unfold selectLicense, and_then, bind, call, ret.
  destruct (listPools _ _ _) as [[[pools|rendered]|err] w1]; simpl.
  - destruct (truthy (findPool pools poolName)); simpl.
    + destruct (listOfferings _ _ _) as [[response|err] w2]; simpl.
      * destruct (findValidLicense _ _ _ _ _ _) as [[o w3] t] eqn:Hscan.
        assert (Ht : forall e, e ∈ t -> isTryUntil e = false).
        { intros e' He'.
          destruct (scan_trace bigIqControl (findPool pools poolName)
                      (default [] response) now 0 w2 e') as [p ->];
            [by rewrite Hscan | done]. }
        destruct o; simpl; rewrite ?app_nil_r;
          intros Hin; in_trace Hin; auto.
      * intros Hin; in_trace Hin; done.
    + intros Hin; in_trace Hin; done.
  - intros Hin; in_trace Hin; done.
  - intros Hin; in_trace Hin; done.
Qed.

Lemma isLicensed_trace poolUuid licenseUuid w :
  (isLicensed bigIqControl poolUuid licenseUuid w).2
  = [ListCall (assignmentPath poolUuid licenseUuid)].
Proof.
  unfold isLicensed, bind, call, ret.
  by destruct (listAssignment _ _ _) as [[?|?] ?].
Qed.

Lemma attempts_unfold {A} n interval (action : M (W := W) (Outcome A)) :
  Util.attempts n interval action =
    (let! o := action in
     match o with
     | Resolved a => ret (Resolved a)
     | Pending => ret Pending
     | Rejected r =>
         match n with
         | O => ret (Rejected (RetryExhausted r))
         | S n' =>
             let! _ := emit (Wait interval) in Util.attempts n' interval action
         end
     end).
Proof. by destruct n. Qed.

Lemma attempts_trace poolUuid licenseUuid interval n : forall w e,
  e ∈ (Util.attempts n interval
         (isLicensed bigIqControl poolUuid licenseUuid) w).2 ->
  isTryUntil e = false.
Proof.
  induction n as [|n IH]; intros w e; rewrite attempts_unfold;
    unfold bind, emit, ret;
    pose proof (isLicensed_trace poolUuid licenseUuid w) as Ht;
    destruct (isLicensed _ _ _ w) as [[o w1] t]; simpl in Ht; subst t.
  - destruct o; simpl; intros Hin; in_trace Hin; done.
  - destruct o; simpl; try (intros Hin; in_trace Hin; done).
    specialize (IH w1).
    destruct (Util.attempts n _ _ w1) as [[o2 w2] t2]; simpl in *.
    intros Hin; in_trace Hin; auto.
Qed.

Lemma awaitLicensed_trace poolUuid key w policy :
  TryUntilCall policy ∈ (awaitLicensed bigIqControl poolUuid key w).2 ->
  policy = {| maxRetries := 40; retryIntervalMs := 5000 |}.
Proof.
  unfold awaitLicensed. destruct (truthy _); simpl; [|by intros ?%elem_of_nil].
  unfold Util.tryUntil, bind, emit, ret.
  pose proof (attempts_trace poolUuid (string_prop key "uuid") 5000 40 w
                (TryUntilCall policy)) as Ha.
  destruct (Util.attempts _ _ _ w) as [[o w1] t]. simpl in *.
  rewrite app_nil_r.
  intros [Heq | Hin]%elem_of_cons; [congruence|].
  by specialize (Ha Hin).
Qed.

End Traces.

(** C5.  When the pool listing is an array without an entry named
  [poolName], the returned promise is rejected with an error whose message
  ends with the requested name; the pool listing is the only call of the
  run: nothing is retried and no offering is listed. *)
Theorem unknown_pool_is_rejected {W} (bigIqControl : IControl W)
  (poolName bigIpMgmtAddress : string) (now : Z)
  (pools : list Pool) (w w1 : W) :
  listPools bigIqControl (LICENSE_PATH +:+ "?$select=uuid,name") w
    = (Ok (PoolArray pools), w1) ->
  (forall pool, pool ∈ pools -> pool_name pool <> JString poolName) ->
  getUnmanagedDeviceLicense bigIqControl poolName bigIpMgmtAddress now w
  = ({| returned :=
          Rejected (Error ("No license pool found with name: " +:+ poolName));
        floating := None |},
     w1,
     [ListCall (LICENSE_PATH +:+ "?$select=uuid,name")]).
Proof.
  intros Hlist Hnone.
  unfold getUnmanagedDeviceLicense, selectLicense, and_then, bind, call, ret.
  rewrite Hlist. simpl. by rewrite (findPool_unknown _ _ Hnone).
Qed.

(** C9.  Every call of [util.tryUntil] in a run carries the policy of 40
  retries, 5000 ms apart; and a run whose scan resolved with a key makes
  that call. *)
Theorem licensing_retry_policy {W} (bigIqControl : IControl W)
  (poolName bigIpMgmtAddress : string) (now : Z) (w : W) :
  let run :=
    getUnmanagedDeviceLicense bigIqControl poolName bigIpMgmtAddress now w in
  (forall policy,
      TryUntilCall policy ∈ run.2 ->
      maxRetries policy = 40 /\ retryIntervalMs policy = 5000%N)
  /\ (forall poolUuid key w1 t1,
        selectLicense bigIqControl poolName now w
          = (Resolved (poolUuid, key), w1, t1) ->
        key <> "" ->
        TryUntilCall {| maxRetries := 40; retryIntervalMs := 5000 |} ∈ run.2).
Proof.
  intros run. subst run. unfold getUnmanagedDeviceLicense, bind. split.
  - intros policy.
    pose proof (selectLicense_trace bigIqControl poolName now w
                  (TryUntilCall policy)) as Hsel.
    destruct (selectLicense _ _ _ w) as [[selected w1] t1]. simpl in Hsel.
    destruct selected as [[poolUuid key]|r|].
    + pose proof (awaitLicensed_trace bigIqControl poolUuid key w1 policy)
        as Hwait.
      destruct (awaitLicensed _ _ _ w1) as [[run w2] t2]. simpl in *.
      intros [Hin | Hin]%elem_of_app.
      * by specialize (Hsel Hin).
      * by rewrite (Hwait Hin).
    + simpl. rewrite app_nil_r. intros Hin. by specialize (Hsel Hin).
    + simpl. rewrite app_nil_r. intros Hin. by specialize (Hsel Hin).
  - intros poolUuid key w1 t1 -> Hkey.
    unfold awaitLicensed, Util.tryUntil, bind, emit, ret. simpl.
    assert (Htruthy : negb (String.eqb key "") = true).
    { apply negb_true_iff, String.eqb_neq, Hkey. }
    rewrite Htruthy.
    destruct (Util.attempts _ _ _ w1) as [[o w2] t2]. simpl.
    apply elem_of_app. right. by left.
Qed.

Lemma unknown_pool_is_rejected_witness :
  listPools Examples.bigIq (LICENSE_PATH +:+ "?$select=uuid,name") 0%nat
    = (Ok (PoolArray [ {| pool_name := JString "pool1";
                          pool_id := JString "u1" |} ]), 1%nat)
  /\ (forall pool,
        pool ∈ [ {| pool_name := JString "pool1";
                    pool_id := JString "u1" |} ] ->
        pool_name pool <> JString "pool2")
  /\ getUnmanagedDeviceLicense Examples.bigIq "pool2" "10.0.0.1" 50 0%nat
     = ({| returned :=
             Rejected (Error "No license pool found with name: pool2");
           floating := None |},
        1%nat,
        [ListCall (LICENSE_PATH +:+ "?$select=uuid,name")]).
Proof.
  assert (Hnone : forall pool,
             pool ∈ [ {| pool_name := JString "pool1";
                         pool_id := JString "u1" |} ] ->
             pool_name pool <> JString "pool2").
  { intros pool Hin. apply list_elem_of_singleton in Hin. subst pool.
    simpl. discriminate. }
  split; [reflexivity|]. split; [exact Hnone|].
  exact (unknown_pool_is_rejected Examples.bigIq "pool2" "10.0.0.1" 50 _
           0%nat 1%nat eq_refl Hnone).
Defined.

Lemma licensing_retry_policy_witness :
  (selectLicense Examples.bigIq "pool1" 50 0%nat).1.1
    = Resolved (JString "u1", "FREE")
  /\ TryUntilCall {| maxRetries := 40; retryIntervalMs := 5000 |}
     ∈ (getUnmanagedDeviceLicense Examples.bigIq "pool1" "10.0.0.1" 50
          0%nat).2
  /\ maxRetries {| maxRetries := 40; retryIntervalMs := 5000 |} = 40
  /\ retryIntervalMs {| maxRetries := 40; retryIntervalMs := 5000 |} = 5000%N.
Proof.
  pose proof (licensing_retry_policy Examples.bigIq "pool1" "10.0.0.1" 50
                0%nat) as [Hany Hcalled].
  assert (Hin : TryUntilCall {| maxRetries := 40; retryIntervalMs := 5000 |}
                ∈ (getUnmanagedDeviceLicense Examples.bigIq "pool1"
                     "10.0.0.1" 50 0%nat).2).
  { apply (Hcalled (JString "u1") "FREE" 4%nat
             (selectLicense Examples.bigIq "pool1" 50 0%nat).2);
      [reflexivity | discriminate]. }
  split; [reflexivity|]. split; [exact Hin|].
  exact (Hany _ Hin).
Defined.

(** Once the scan has resolved, the returned promise is fulfilled with
  [undefined], whatever the polls of the assignment answer. *)
Lemma returned_after_selection {W} (bigIqControl : IControl W)
  (poolName bigIpMgmtAddress : string) (now : Z) (w w1 : W)
  (poolUuid : JsValue) (key : string) (t1 : list Event) :
  selectLicense bigIqControl poolName now w
    = (Resolved (poolUuid, key), w1, t1) ->
  returned
    (getUnmanagedDeviceLicense bigIqControl poolName bigIpMgmtAddress now w).1.1
  = Resolved JUndefined.
Proof.
  intros Hsel. unfold getUnmanagedDeviceLicense, bind. rewrite Hsel.
  unfold awaitLicensed, Util.tryUntil, bind, emit, ret.
  destruct (truthy _); simpl; [|done].
  by destruct (Util.attempts _ _ _ w1) as [[o w2] t2].
Qed.

(** When every poll answers with a state other than [LICENSED], the budget
  runs out. *)
Lemma attempts_exhausted {W} (bigIqControl : IControl W)
  (poolUuid licenseUuid : JsValue) (interval : N) (n : nat) :
  (forall path w, exists assignment w1,
      listAssignment bigIqControl path w = (Ok assignment, w1)
      /\ strict_eq (state assignment) "LICENSED" = false) ->
  forall w, exists r,
    (Util.attempts n interval
       (isLicensed bigIqControl poolUuid licenseUuid) w).1.1 = Rejected r.
Proof.
  intros Hpolls.
  assert (Hpoll : forall w, exists w1 t,
             isLicensed bigIqControl poolUuid licenseUuid w
             = (Rejected NoReason, w1, t)).
  { intros w. unfold isLicensed, bind, call, ret.
    destruct (Hpolls (assignmentPath poolUuid licenseUuid) w)
      as (assignment & w1 & -> & Hstate).
    simpl. rewrite Hstate. eauto. }
  induction n as [|n IH]; intros w; rewrite attempts_unfold;
    unfold bind, emit, ret; destruct (Hpoll w) as (w1 & t & ->).
  - simpl. eauto.
  - destruct (IH w1) as [r Hr].
    destruct (Util.attempts n _ _ w1) as [[o w2] t2]. simpl in *. eauto.
Qed.

(** In such a run the rejection "Giving up on licensing via BIG-IQ." is
  the outcome of the chain that the last handler drops, not of the
  promise that [getUnmanagedDeviceLicense] returns. *)
Lemma timeout_is_left_floating {W} (bigIqControl : IControl W)
  (poolName bigIpMgmtAddress : string) (now : Z) (w w1 : W)
  (poolUuid : JsValue) (key : string) (t1 : list Event) :
  selectLicense bigIqControl poolName now w
    = (Resolved (poolUuid, key), w1, t1) ->
  key <> "" ->
  (forall path w0, exists assignment w2,
      listAssignment bigIqControl path w0 = (Ok assignment, w2)
      /\ strict_eq (state assignment) "LICENSED" = false) ->
  (getUnmanagedDeviceLicense bigIqControl poolName bigIpMgmtAddress now w).1.1
  = {| returned := Resolved JUndefined;
       floating :=
         Some (Rejected (Error "Giving up on licensing via BIG-IQ.")) |}.
Proof.
  intros Hsel Hkey Hpolls. unfold getUnmanagedDeviceLicense, bind.
  rewrite Hsel. unfold awaitLicensed, Util.tryUntil, bind, emit, ret. simpl.
  assert (Htruthy : negb (String.eqb key "") = true).
  { apply negb_true_iff, String.eqb_neq, Hkey. }
  rewrite Htruthy.
  destruct (attempts_exhausted bigIqControl poolUuid
              (string_prop key "uuid") 5000 40 Hpolls w1) as [r Hr].
  destruct (Util.attempts _ _ _ w1) as [[o w2] t2]. simpl in *.
  by rewrite Hr.
Qed.

(** C3, on the code.  The pool [pool1] has a free offering and the
  assignment stays [PENDING] for the 41 polls of the budget.  The chain
  built on [util.tryUntil] ends in the rejection "Giving up on licensing
  via BIG-IQ.", but the promise returned by [getUnmanagedDeviceLicense]
  is fulfilled with [undefined]. *)
Theorem licensing_timeout_is_dropped :
  let run :=
    getUnmanagedDeviceLicense Examples.bigIq "pool1" "10.0.0.1" 50 0%nat in
  returned run.1.1 = Resolved JUndefined
  /\ floating run.1.1
     = Some (Rejected (Error "Giving up on licensing via BIG-IQ."))
  /\ length (List.filter Examples.isPoll run.2) = 41
  /\ length (List.filter Examples.isWait run.2) = 40.
Proof. vm_compute. done. Qed.

End LicensingWorkflow.

(** ** Reconciliation of the device *)

Module StateReconciler.
Import BigIpOnboard.

Lemma differing_lookup (desired current : gmap string Value) k v :
  differing desired current !! k = Some v
  <-> desired !! k = Some v /\ current !! k <> Some v.
Proof. unfold differing. by rewrite map_lookup_filter_Some. Qed.

Lemma differing_untouched (desired current : gmap string Value) k :
  desired !! k = None -> differing desired current !! k = None.
Proof.
  intros Hk. unfold differing. apply map_lookup_filter_None. by left.
Qed.

(** Applying the patch leaves nothing to reconcile. *)
Lemma differing_modified (desired current : gmap string Value) :
  differing desired (modified (differing desired current) current) = ∅.
Proof.
  apply map_eq. intros k. rewrite lookup_empty.
  apply map_lookup_filter_None. right. intros v Hk. simpl. intros Hne.
  apply Hne. unfold modified.
  destruct (decide (current !! k = Some v)) as [Hsame | Hdiff].
  - apply lookup_union_Some_raw. right. split; [|done].
    apply map_lookup_filter_None. right. intros x Hx. simpl. naive_solver.
  - apply lookup_union_Some_raw. left. by apply differing_lookup.
Qed.

Section Reconcile.
Context {W : Type} (icontrol : IControl W).

(** C6.  When the new hostname equals the name of the device, the
  operation resolves with a no-op whose message contains "matches", after
  the listing alone; when it differs, the first call after the listing is
  the [mv] create on the device resource, and once that create is
  acknowledged the modify of the global settings that carries the new
  hostname follows, and nothing else. *)
Theorem hostname_rename_idempotence (current desired : string) (w w1 : W) :
  listDevice icontrol "/tm/cm/device" w = (Ok current, w1) ->
  (desired = current ->
     exists message,
       hostname icontrol desired w
         = (Resolved (NoOp message), w1, [ListCall "/tm/cm/device"])
       /\ contains "matches" message = true)
  /\ (desired <> current ->
      exists rest,
        (hostname icontrol desired w).2
          = ListCall "/tm/cm/device"
              :: CreateCall "/tm/cm/device"
                   {[ "command" := VStr "mv"; "name" := VStr current;
                      "target" := VStr desired ]}
              :: rest
        /\ forall document w2,
             create icontrol "/tm/cm/device" (rename current desired) w1
               = (Ok document, w2) ->
             rest = [ModifyCall "/tm/sys/global-settings"
                       {[ "hostname" := VStr desired ]}]).
Proof.
  intros Hlist. unfold hostname, and_then, bind, call, ret. rewrite Hlist.
  simpl. split.
  - intros ->. rewrite String.eqb_refl. eexists. split; [done|].
    by vm_compute.
  - intros Hne. apply not_eq_sym, String.eqb_neq in Hne. rewrite Hne.
    destruct (create _ _ _ w1) as [[document|err] w2]; simpl.
    + destruct (modify _ _ _ w2) as [[?|?] ?]; simpl;
        (eexists; split; [done|]); intros; done.
    + eexists. split; [done|]. intros; done.
Qed.

(** C7.  After the current state was fetched, the patch holds exactly the
  desired fields whose current value is not the desired one; the only
  mutation of the run is one modify with that patch, and none at all when
  the patch is empty; a field that the desired mapping does not mention is
  neither in the patch nor changed by the modify. *)
Theorem reconciliation_minimal_patch (resourcePath : string)
  (desired current : gmap string Value) (w w1 : W) :
  listResource icontrol resourcePath w = (Ok current, w1) ->
  let patch := differing desired current in
  (forall k v,
      patch !! k = Some v
      <-> desired !! k = Some v /\ current !! k <> Some v)
  /\ List.filter is_mutation
       (applyIfDifferent icontrol resourcePath desired w).2
     = (if decide (patch = ∅) then [] else [ModifyCall resourcePath patch])
  /\ (forall k,
        desired !! k = None ->
        patch !! k = None /\ modified patch current !! k = current !! k).
Proof.
  intros Hlist patch. subst patch. split; [|split].
  - intros k v. apply differing_lookup.
  - unfold applyIfDifferent, and_then, bind, call, ret. rewrite Hlist. simpl.
    destruct (decide (differing desired current = ∅)); simpl; [done|].
    by destruct (modify _ _ _ w1) as [[?|?] ?].
  - intros k Hk. pose proof (differing_untouched desired current k Hk) as Hp.
    split; [done|]. unfold modified.
    by rewrite lookup_union_r.
Qed.

(** C8.  After the listing of the existing users: a name that is absent is
  installed by a create on the user collection that carries the name and
  the role under partition access; a name that is present is updated by a
  modify on the user that carries neither name nor partition access; a
  name that is absent, without a role, is rejected as a configuration
  error and the listing is the only call. *)
Theorem updateUser_create_or_modify (user password : string)
  (role shell : option string) (users : list string) (w w1 : W) :
  listUsers icontrol "/tm/auth/user" w = (Ok users, w1) ->
  let run := updateUser icontrol user password role shell w in
  (user ∉ users ->
     forall r, role = Some r ->
       exists body,
         run.2 = [ListCall "/tm/auth/user"; CreateCall "/tm/auth/user" body]
         /\ body !! "name" = Some (VStr user)
         /\ body !! "partition-access"
            = Some (VObj {[ "all-partitions" := VObj {[ "role" := VStr r ]} ]}))
  /\ (user ∈ users ->
      exists body,
        run.2 = [ListCall "/tm/auth/user";
                 ModifyCall ("/tm/auth/user/" +:+ user) body]
        /\ body !! "name" = None
        /\ body !! "partition-access" = None)
  /\ (user ∉ users ->
      role = None ->
      exists message,
        run.1.1 = Rejected (ConfigurationError message)
        /\ run.2 = [ListCall "/tm/auth/user"]).
Proof.
  intros Hlist run. subst run.
  unfold updateUser, and_then, bind, call, ret. rewrite Hlist. simpl.
  split; [|split].
  - intros Hnew r ->. destruct (decide (user ∈ users)); [done|].
    destruct (create _ _ _ w1) as [[?|?] ?]; simpl;
      (eexists; split; [done|]); unfold newUser; destruct shell; done.
  - intros Hold. destruct (decide (user ∈ users)); [|done].
    destruct (modify _ _ _ w1) as [[?|?] ?]; simpl;
      (eexists; split; [done|]); unfold userUpdate; destruct shell; done.
  - intros Hnew ->. destruct (decide (user ∈ users)); [done|].
    simpl. eauto.
Qed.

End Reconcile.

(** The runs of the onboarding tests. *)

Import Examples.

Lemma hostname_rename_idempotence_witness :
  listDevice (testDevice "yourOldHostname" []) "/tm/cm/device" []
    = (Ok "yourOldHostname", [ListCall "/tm/cm/device"])
  /\ (hostname (testDevice "yourOldHostname" []) "myNewHostName" []).2
     = [ListCall "/tm/cm/device";
        CreateCall "/tm/cm/device"
          {[ "command" := VStr "mv"; "name" := VStr "yourOldHostname";
             "target" := VStr "myNewHostName" ]};
        ModifyCall "/tm/sys/global-settings"
          {[ "hostname" := VStr "myNewHostName" ]}]
  /\ exists message,
      hostname (testDevice "myNewHostName" []) "myNewHostName" []
        = (Resolved (NoOp message), [ListCall "/tm/cm/device"],
           [ListCall "/tm/cm/device"])
      /\ contains "matches" message = true.
Proof.
  split; [reflexivity|]. split.
  - destruct (hostname_rename_idempotence (testDevice "yourOldHostname" [])
                "yourOldHostname" "myNewHostName" [] _ eq_refl)
      as [_ Hchange].
    destruct Hchange as (rest & -> & Hrest); [discriminate|].
    by rewrite (Hrest ∅ _ eq_refl).
  - exact (proj1 (hostname_rename_idempotence (testDevice "myNewHostName" [])
                    "myNewHostName" "myNewHostName" [] _ eq_refl) eq_refl).
Defined.

Lemma reconciliation_minimal_patch_witness :
  listResource (device "bigip1" [] settings) "/tm/sys/global-settings" []
    = (Ok settings, [ListCall "/tm/sys/global-settings"])
  /\ List.filter is_mutation
       (applyIfDifferent (device "bigip1" [] settings)
          "/tm/sys/global-settings" desiredSettings []).2
     = [ModifyCall "/tm/sys/global-settings" {[ "b" := VNum 2 ]}]
  /\ modified (differing desiredSettings settings) settings !! "c"
     = Some (VStr "kept").
Proof.
  destruct (reconciliation_minimal_patch (device "bigip1" [] settings)
              "/tm/sys/global-settings" desiredSettings settings [] _ eq_refl)
    as (_ & Hcalls & Hframe).
  split; [reflexivity|]. split.
  - rewrite Hcalls. reflexivity.
  - rewrite (proj2 (Hframe "c" eq_refl)). reflexivity.
Defined.

Lemma updateUser_create_or_modify_witness :
  listUsers (testDevice "bigip1" ["admin"]) "/tm/auth/user" []
    = (Ok ["admin"], [ListCall "/tm/auth/user"])
  /\ ("myUser" ∉ ["admin"])
  /\ exists body,
      (updateUser (testDevice "bigip1" ["admin"]) "myUser" "myPass"
         (Some "myRole") None []).2
        = [ListCall "/tm/auth/user"; CreateCall "/tm/auth/user" body]
      /\ body !! "name" = Some (VStr "myUser")
      /\ body !! "partition-access"
         = Some (VObj {[ "all-partitions" :=
                           VObj {[ "role" := VStr "myRole" ]} ]}).
Proof.
  assert (Hnew : "myUser" ∉ ["admin"]).
  { intros Hin. apply list_elem_of_singleton in Hin. discriminate. }
  split; [reflexivity|]. split; [exact Hnew|].
  exact (proj1 (updateUser_create_or_modify (testDevice "bigip1" ["admin"])
                  "myUser" "myPass" (Some "myRole") None ["admin"] [] _
                  eq_refl) Hnew "myRole" eq_refl).
Defined.

(** [testHostName.testNoChange] *)
Example testNoChange :
  hostname (testDevice "myNewHostName" []) "myNewHostName" []
  = (Resolved (NoOp "hostname already matches desired value"),
     [ListCall "/tm/cm/device"], [ListCall "/tm/cm/device"]).
Proof. reflexivity. Qed.

(** [testUpdateUser.testCreateNoRole] *)
Example testCreateNoRole :
  (updateUser (testDevice "bigip1" ["admin"]) "myUser" "myPass" None None []).1
  = (Rejected (ConfigurationError "Creating a user requires a role: myUser"),
     [ListCall "/tm/auth/user"]).
Proof. reflexivity. Qed.

(** [testUpdateUser.testCreateNoExistingUsers] *)
Example testCreateNoExistingUsers :
  (updateUser (testDevice "bigip1" []) "myUser" "myPass"
     (Some "myRole") (Some "myShell") []).2
  = [ListCall "/tm/auth/user";
     CreateCall "/tm/auth/user"
       {[ "name" := VStr "myUser"; "password" := VStr "myPass";
          "shell" := VStr "myShell";
          "partition-access" :=
            VObj {[ "all-partitions" := VObj {[ "role" := VStr "myRole" ]} ]}
       ]}].
Proof. by vm_compute. Qed.

(** [testUpdateUser.testUpdate] *)
Example testUpdate :
  (updateUser (testDevice "bigip1" ["myUser"]) "myUser" "myPass"
     (Some "myRole") None []).2
  = [ListCall "/tm/auth/user";
     ModifyCall "/tm/auth/user/myUser" {[ "password" := VStr "myPass" ]}].
Proof. reflexivity. Qed.

(** [testProvision.testBasic]: only [mod1] is to be changed. *)
Example testProvisionLevels :
  differing provisionSettings provisioned = {[ "mod1" := VStr "level2" ]}.
Proof. by vm_compute. Qed.

(** Reconciling twice: the second run finds nothing to change. *)
Example reconciled_twice :
  differing desiredSettings
    (modified (differing desiredSettings settings) settings) = ∅.
Proof. apply differing_modified. Qed.

End StateReconciler.


(** ** Further behaviour of the license provider *)

Module ProviderBehaviour.
Import BigIq5_2LicenseProvider ScanFacts LicensingWorkflow.

Section Lists.
Context {W : Type} (bigIqControl : IControl W).
Variables (poolUuid : JsValue) (now : Z).

Abbreviation scanOf licenses :=
  (findValidLicense bigIqControl poolUuid licenses now).

Lemma scan_nil w : scanOf [] 0 w = (Rejected NoReason, w, []).
Proof. by apply scan_past_end. Qed.

(** The recursion on the index walks the list: past the head, the scan of
    a list is the scan of its tail. *)
Lemma scan_shift license licenses m : forall index w,
  length licenses - index = m ->
  scanOf (license :: licenses) (S index) w = scanOf licenses index w.
Proof.
  induction m as [|m IH]; intros index w Hm.
  - rewrite !scan_past_end; [done | lia | simpl; lia].
  - destruct (lookup_lt_is_Some_2 licenses index) as [l0 Hl0]; [lia|].
    rewrite (scan_unfold _ _ (license :: licenses) _ (S index) w l0 Hl0).
    rewrite (scan_unfold _ _ licenses _ index w l0 Hl0).
    destruct (inWindow now l0); [|by apply IH; lia].
    destruct (listMembers _ _ w) as [[[[|? ?]|]|?] w1]; try done;
      by rewrite IH by lia.
Qed.

Lemma scan_cons license licenses w :
  scanOf (license :: licenses) 0 w =
    if inWindow now license then
      match listMembers bigIqControl (membersPath poolUuid license) w with
      | (Ok (MemberArray []), w1) =>
          (Resolved (registrationKey (licenseState license)), w1,
           [ListCall (membersPath poolUuid license)])
      | (_, w1) =>
          after_events [ListCall (membersPath poolUuid license)]
            (scanOf licenses 0 w1)
      end
    else scanOf licenses 0 w.
Proof.
  rewrite (scan_unfold _ _ (license :: licenses) _ 0 w license eq_refl).
  destruct (inWindow now license);
    [|by apply scan_shift with (m := length licenses - 0)].
  destruct (listMembers _ _ w) as [[[[|? ?]|]|?] w1]; try done;
    by rewrite (scan_shift _ _ _ 0 w1 eq_refl).
Qed.


(** X2.  The scan stops at the first fit: whatever offerings follow in a
    longer inventory, it resolves with the same key, in the same world,
    after the same calls. *)
Theorem scan_ignores_later_offerings (licenses more : list Offering)
  (w w' : W) (key : string) (t : list Event) :
  scanOf licenses 0 w = (Resolved key, w', t) ->
  scanOf (licenses ++ more) 0 w = (Resolved key, w', t).
Proof.
  revert w t. induction licenses as [|license licenses IH]; intros w t.
  - rewrite scan_nil. discriminate.
  - rewrite <- app_comm_cons, !scan_cons.
    assert (Hskip : forall w1,
               after_events [ListCall (membersPath poolUuid license)]
                 (scanOf licenses 0 w1) = (Resolved key, w', t) ->
               after_events [ListCall (membersPath poolUuid license)]
                 (scanOf (licenses ++ more) 0 w1) = (Resolved key, w', t)).
    { intros w1. destruct (scanOf licenses 0 w1) as [[o w2] t2] eqn:Hrest.
      simpl. intros [= -> -> <-]. by rewrite (IH w1 t2 Hrest). }
    destruct (inWindow now license); [|apply IH].
    destruct (listMembers _ _ w) as [[[[|? ?]|]|?] w1]; auto.
Qed.

(** X3.  Started at [index], the scan is the scan of what is left of the
    inventory from that index on. *)
Theorem scan_from_index (licenses : list Offering) (index : nat) (w : W) :
  scanOf licenses index w = scanOf (drop index licenses) 0 w.
Proof.
  revert index. induction licenses as [|license licenses IH]; intros index.
  - rewrite drop_nil, scan_nil. apply scan_past_end. simpl. lia.
  - destruct index as [|index]; [done|].
    rewrite (scan_shift _ _ _ index w eq_refl). simpl. apply IH.
Qed.

(** X4.  Offerings outside their validity window have no part in the scan:
    without them the outcome, the world and the calls are the same. *)
Theorem scan_without_expired (licenses : list Offering) (w : W) :
  scanOf (List.filter (inWindow now) licenses) 0 w = scanOf licenses 0 w.
Proof.
  revert w. induction licenses as [|license licenses IH]; intros w; [done|].
  simpl. rewrite (scan_cons license licenses).
  destruct (inWindow now license) eqn:Hwin; [|apply IH].
  rewrite scan_cons, Hwin.
  destruct (listMembers _ _ w) as [[[[|? ?]|]|?] w1]; try done;
    by rewrite IH.
Qed.

End Lists.

(** *** Pool resolution *)

Lemma findPool_prefix (before after : list Pool) (pool : Pool)
  (poolName : string) :
  (forall other, other ∈ before -> pool_name other <> JString poolName) ->
  pool_name pool = JString poolName ->
  findPool (before ++ pool :: after) poolName = pool_id pool.
Proof.
  intros Hbefore Hname.
  induction before as [|other before IH]; simpl.
  - rewrite Hname. simpl. by rewrite String.eqb_refl.
  - assert (Hother : strict_eq (pool_name other) poolName = false).
    { specialize (Hbefore other (list_elem_of_here _ _)).
      destruct (pool_name other) as [|s]; simpl; [done|].
      apply String.eqb_neq. congruence. }
    rewrite Hother. apply IH. intros p Hp. apply Hbefore. by right.
Qed.

(** X5.  The pool is the first one of the listing that bears the name:
    pools of the same name further down are not looked at. *)
Theorem findPool_first_match (before after : list Pool) (pool : Pool)
  (poolName : string) :
  (forall other, other ∈ before -> pool_name other <> JString poolName) ->
  pool_name pool = JString poolName ->
  findPool (before ++ pool :: after) poolName = pool_id pool.
Proof. intros Hbefore Hname. by apply findPool_prefix. Qed.

Section Workflow.
Context {W : Type} (bigIqControl : IControl W).
Variables (poolName bigIpMgmtAddress : string) (now : Z).

Abbreviation poolsPath := (LICENSE_PATH +:+ "?$select=uuid,name").
Abbreviation offeringsPath poolUuid :=
  (LICENSE_PATH +:+ to_string poolUuid +:+ "/offerings").

(** The run up to the scan, once both listings were answered. *)
Lemma selection_after_listings pools response w w1 w2 :
  listPools bigIqControl poolsPath w = (Ok (PoolArray pools), w1) ->
  truthy (findPool pools poolName) = true ->
  listOfferings bigIqControl (offeringsPath (findPool pools poolName)) w1
    = (Ok response, w2) ->
  selectLicense bigIqControl poolName now w =
    let '(o, w3, t) :=
      findValidLicense bigIqControl (findPool pools poolName)
        (default [] response) now 0 w2 in
    (match o with
     | Resolved key => Resolved (findPool pools poolName, key)
     | Rejected r => Rejected r
     | Pending => Pending
     end, w3,
     ListCall poolsPath
       :: ListCall (offeringsPath (findPool pools poolName)) :: t).
Proof.
  intros Hpools Hid Hofferings.
  unfold selectLicense, and_then, bind, call, ret.
  rewrite Hpools. simpl. rewrite Hid. rewrite Hofferings. simpl.
  destruct (findValidLicense _ _ _ _ _ _) as [[[key|r|] w3] t]; simpl;
    by rewrite app_nil_r.
Qed.


(** X6.  A pool listing that is not an array rejects the returned promise
    with an error that quotes the listing; nothing else is called. *)
Theorem pool_listing_not_an_array (rendered : string) (w w1 : W) :
  listPools bigIqControl poolsPath w = (Ok (NotAnArray rendered), w1) ->
  getUnmanagedDeviceLicense bigIqControl poolName bigIpMgmtAddress now w
  = ({| returned :=
          Rejected (Error ("Error getting license pools: " +:+ rendered));
        floating := None |},
     w1, [ListCall poolsPath]).
Proof.
  intros Hpools.
  unfold getUnmanagedDeviceLicense, selectLicense, and_then, bind, call, ret.
  by rewrite Hpools.
Qed.

(** X7.  A listing that fails rejects the returned promise with the very
    reason of the failure, and ends the run: after a failed pool listing
    nothing is called, after a failed offering listing no membership is
    asked and no wait starts. *)
Theorem listing_failure_propagates (w w1 : W) (err : Reason) :
  (listPools bigIqControl poolsPath w = (Fail err, w1) ->
   getUnmanagedDeviceLicense bigIqControl poolName bigIpMgmtAddress now w
   = ({| returned := Rejected err; floating := None |}, w1,
      [ListCall poolsPath]))
  /\ (forall pools w2,
        listPools bigIqControl poolsPath w = (Ok (PoolArray pools), w1) ->
        truthy (findPool pools poolName) = true ->
        listOfferings bigIqControl
          (offeringsPath (findPool pools poolName)) w1 = (Fail err, w2) ->
        getUnmanagedDeviceLicense bigIqControl poolName bigIpMgmtAddress now w
        = ({| returned := Rejected err; floating := None |}, w2,
           [ListCall poolsPath;
            ListCall (offeringsPath (findPool pools poolName))])).
Proof.
  split.
  - intros Hpools.
    unfold getUnmanagedDeviceLicense, selectLicense, and_then, bind, call,
      ret.
    by rewrite Hpools.
  - intros pools w2 Hpools Hid Hofferings.
    unfold getUnmanagedDeviceLicense, selectLicense, and_then, bind, call,
      ret.
    rewrite Hpools. simpl. rewrite Hid, Hofferings. done.
Qed.

(** X8.  When the first pool that bears the name has no usable id (none,
    or the empty string), the run ends as if no pool had the name, even if
    a pool of that name with an id follows in the listing. *)
Theorem pool_without_id_is_not_found (before after : list Pool)
  (pool : Pool) (w w1 : W) :
  listPools bigIqControl poolsPath w
    = (Ok (PoolArray (before ++ pool :: after)), w1) ->
  (forall other, other ∈ before -> pool_name other <> JString poolName) ->
  pool_name pool = JString poolName ->
  truthy (pool_id pool) = false ->
  getUnmanagedDeviceLicense bigIqControl poolName bigIpMgmtAddress now w
  = ({| returned :=
          Rejected (Error ("No license pool found with name: " +:+ poolName));
        floating := None |},
     w1, [ListCall poolsPath]).
Proof.
  intros Hpools Hbefore Hname Hid.
  unfold getUnmanagedDeviceLicense, selectLicense, and_then, bind, call, ret.
  rewrite Hpools. simpl.
  by rewrite (findPool_prefix _ _ _ _ Hbefore Hname), Hid.
Qed.

(** X9.  An offering listing that is empty, or a falsy value, rejects the
    returned promise with no reason at all, after the two listings alone. *)
Theorem empty_inventory_is_rejected_bare (pools : list Pool)
  (response : option (list Offering)) (w w1 w2 : W) :
  listPools bigIqControl poolsPath w = (Ok (PoolArray pools), w1) ->
  truthy (findPool pools poolName) = true ->
  listOfferings bigIqControl (offeringsPath (findPool pools poolName)) w1
    = (Ok response, w2) ->
  response = None \/ response = Some [] ->
  getUnmanagedDeviceLicense bigIqControl poolName bigIpMgmtAddress now w
  = ({| returned := Rejected NoReason; floating := None |}, w2,
     [ListCall poolsPath;
      ListCall (offeringsPath (findPool pools poolName))]).
Proof.
  intros Hpools Hid Hofferings Hempty.
  unfold getUnmanagedDeviceLicense, bind.
  rewrite (selection_after_listings _ _ _ _ _ Hpools Hid Hofferings).
  assert (Hnil : default [] response = []) by (by destruct Hempty as [-> | ->]).
  rewrite Hnil, scan_nil. done.
Qed.

End Workflow.

(** *** The wait for the license *)

Section Waiting.
Context {W : Type} (bigIqControl : IControl W).

Lemma attempts_events poolUuid licenseUuid interval n : forall w e,
  e ∈ (Util.attempts n interval
         (isLicensed bigIqControl poolUuid licenseUuid) w).2 ->
  e = ListCall (assignmentPath poolUuid licenseUuid) \/ e = Wait interval.
Proof.
  induction n as [|n IH]; intros w e; rewrite attempts_unfold;
    unfold bind, emit, ret;
    pose proof (isLicensed_trace bigIqControl poolUuid licenseUuid w) as Ht;
    destruct (isLicensed _ _ _ w) as [[o w1] t]; simpl in Ht; subst t.
  - destruct o; simpl; intros Hin; in_trace Hin; auto.
  - destruct o; simpl; try (intros Hin; in_trace Hin; auto; fail).
    specialize (IH w1).
    destruct (Util.attempts n _ _ w1) as [[o2 w2] t2]; simpl in *.
    intros Hin; in_trace Hin; auto.
Qed.

(** X10.  Every poll of the wait lists the member named [undefined] of the
    pool: the last handler reads the license id off the registration key,
    a string, which has no [uuid]. *)
Theorem polls_address_undefined (poolUuid : JsValue) (key path : string)
  (w : W) :
  ListCall path ∈ (awaitLicensed bigIqControl poolUuid key w).2 ->
  path = "/cm/shared/licensing/pools/" +:+ to_string poolUuid
           +:+ "/members/undefined".
Proof.
  unfold awaitLicensed. destruct (truthy _); simpl; [|by intros ?%elem_of_nil].
  unfold Util.tryUntil, bind, emit, ret.
  pose proof (attempts_events poolUuid (string_prop key "uuid") 5000 40 w
                (ListCall path)) as Ha.
  destruct (Util.attempts _ _ _ w) as [[o w1] t]. simpl in *.
  rewrite app_nil_r.
  intros [Heq | Hin]%elem_of_cons; [discriminate|].
  destruct (Ha Hin) as [[= ->] | [=]]. done.
Qed.

(** X11.  A poll whose listing fails is never retried: the deferred of
    [isLicensed] stays unsettled, so the wait hangs after that one call
    and the dropped chain never settles. *)
Theorem failed_poll_is_never_retried (poolUuid : JsValue) (key : string)
  (w w1 : W) (err : Reason) :
  key <> "" ->
  listAssignment bigIqControl (assignmentPath poolUuid JUndefined) w
    = (Fail err, w1) ->
  awaitLicensed bigIqControl poolUuid key w
  = ({| returned := Resolved JUndefined; floating := Some Pending |}, w1,
     [TryUntilCall {| maxRetries := 40; retryIntervalMs := 5000 |};
      ListCall (assignmentPath poolUuid JUndefined)]).
Proof.
  intros Hkey Hpoll. unfold awaitLicensed, truthy.
  assert (Htruthy : negb (String.eqb key "") = true).
  { apply negb_true_iff, String.eqb_neq, Hkey. }
  rewrite Htruthy. unfold string_prop, strict_eq, Util.tryUntil.
  simpl maxRetries. simpl retryIntervalMs. rewrite attempts_unfold.
  unfold isLicensed, bind, emit, call, ret. cbv zeta. by rewrite Hpoll.
Qed.

Variables (poolName bigIpMgmtAddress : string) (now : Z).




(** X15.  When every poll answers with a state other than [LICENSED], the
    returned promise is still fulfilled with [undefined]: the rejection
    "Giving up on licensing via BIG-IQ." settles the chain that the last
    handler drops, and it alone. *)
Theorem timeout_never_reaches_caller (w w1 : W) (poolUuid : JsValue)
  (key : string) (t1 : list Event) :
  selectLicense bigIqControl poolName now w
    = (Resolved (poolUuid, key), w1, t1) ->
  key <> "" ->
  (forall path w0, exists assignment w2,
      listAssignment bigIqControl path w0 = (Ok assignment, w2)
      /\ state assignment <> JString "LICENSED") ->
  (getUnmanagedDeviceLicense bigIqControl poolName bigIpMgmtAddress now w).1.1
  = {| returned := Resolved JUndefined;
       floating :=
         Some (Rejected (Error "Giving up on licensing via BIG-IQ.")) |}.
Proof.
  intros Hsel Hkey Hpolls.
  apply (timeout_is_left_floating bigIqControl poolName bigIpMgmtAddress now
           w w1 poolUuid key t1 Hsel Hkey).
  intros path w0. destruct (Hpolls path w0) as (assignment & w2 & Heq & Hst).
  exists assignment, w2. split; [done|].
  destruct (state assignment) as [|s]; simpl; [done|].
  apply String.eqb_neq. congruence.
Qed.

End Waiting.

(** X14.  The returned promise does not depend on the polls: two clients
    that answer the pool, offering and membership listings alike yield the
    same selection and the same returned promise, however they answer the
    polls of the assignment. *)
Theorem returned_ignores_polls {W} (c1 c2 : IControl W)
  (poolName bigIpMgmtAddress : string) (now : Z) (w : W) :
  (forall path w0, listPools c1 path w0 = listPools c2 path w0) ->
  (forall path w0, listOfferings c1 path w0 = listOfferings c2 path w0) ->
  (forall path w0, listMembers c1 path w0 = listMembers c2 path w0) ->
  selectLicense c1 poolName now w = selectLicense c2 poolName now w
  /\ returned
       (getUnmanagedDeviceLicense c1 poolName bigIpMgmtAddress now w).1.1
     = returned
         (getUnmanagedDeviceLicense c2 poolName bigIpMgmtAddress now w).1.1.
Proof.
  intros Hpools Hofferings Hmembers.
  assert (Hsel : selectLicense c1 poolName now w
                 = selectLicense c2 poolName now w).
  { unfold selectLicense, and_then, bind, call, ret. rewrite Hpools.
    destruct (listPools c2 _ w) as [[[pools|rendered]|err] w1]; simpl;
      [|done..].
    destruct (truthy _); [|done]. rewrite Hofferings.
    destruct (listOfferings c2 _ w1) as [[response|err] w2]; simpl; [|done].
    by rewrite (scan_ext c1 c2 _ _ _ Hmembers _ 0 w2 eq_refl). }
  split; [done|].
  destruct (selectLicense c2 poolName now w) as [[selected w1] t1] eqn:Hsel2.
  destruct selected as [[poolUuid key]|r|].
  - by rewrite (returned_after_selection c1 _ _ _ _ _ _ _ _ Hsel),
       (returned_after_selection c2 _ _ _ _ _ _ _ _ Hsel2).
  - unfold getUnmanagedDeviceLicense, bind. by rewrite Hsel, Hsel2.
  - unfold getUnmanagedDeviceLicense, bind. by rewrite Hsel, Hsel2.
Qed.

(** *** Runs against the concrete BIG-IQ *)

Import Examples.


Lemma scan_ignores_later_offerings_witness :
  findValidLicense bigIq u1 inventory 50 0 0%nat
    = (Resolved "FREE", 2%nat,
       [ListCall (membersPath u1 (offering 0 100 "CLAIMED"));
        ListCall (membersPath u1 (offering 0 100 "FREE"))])
  /\ findValidLicense bigIq u1 (inventory ++ restocked) 50 0 0%nat
     = (Resolved "FREE", 2%nat,
        [ListCall (membersPath u1 (offering 0 100 "CLAIMED"));
         ListCall (membersPath u1 (offering 0 100 "FREE"))]).
Proof.
  split; [reflexivity|].
  apply (scan_ignores_later_offerings bigIq u1 50 inventory restocked).
  reflexivity.
Defined.

Lemma findPool_first_match_witness :
  (forall other,
      other ∈ [ {| pool_name := JString "pool0";
                   pool_id := JString "u0" |} ] ->
      pool_name other <> JString "pool1")
  /\ findPool shadowedPools "pool1" = JUndefined.
Proof.
  assert (Hbefore : forall other,
             other ∈ [ {| pool_name := JString "pool0";
                          pool_id := JString "u0" |} ] ->
             pool_name other <> JString "pool1").
  { intros other Hin. apply list_elem_of_singleton in Hin. subst other.
    simpl. discriminate. }
  split; [exact Hbefore|].
  exact (findPool_first_match
           [ {| pool_name := JString "pool0"; pool_id := JString "u0" |} ]
           [pool1] {| pool_name := JString "pool1"; pool_id := JUndefined |}
           "pool1" Hbefore eq_refl).
Defined.

Lemma pool_listing_not_an_array_witness :
  getUnmanagedDeviceLicense
    (bigIqWith (Ok (NotAnArray "[object Object]")) (Ok None) (Ok pending))
    "pool1" "10.0.0.1" 50 0%nat
  = ({| returned :=
          Rejected (Error "Error getting license pools: [object Object]");
        floating := None |},
     1%nat, [ListCall (LICENSE_PATH +:+ "?$select=uuid,name")]).
Proof.
  exact (pool_listing_not_an_array
           (bigIqWith (Ok (NotAnArray "[object Object]")) (Ok None)
              (Ok pending))
           "pool1" "10.0.0.1" 50 "[object Object]" 0%nat 1%nat eq_refl).
Defined.

Lemma listing_failure_propagates_witness :
  getUnmanagedDeviceLicense
    (bigIqWith (Fail (Error "ECONNREFUSED")) (Ok None) (Ok pending))
    "pool1" "10.0.0.1" 50 0%nat
  = ({| returned := Rejected (Error "ECONNREFUSED"); floating := None |},
     1%nat, [ListCall (LICENSE_PATH +:+ "?$select=uuid,name")])
  /\ getUnmanagedDeviceLicense
       (bigIqWith (Ok (PoolArray [pool1])) (Fail (Error "ETIMEDOUT"))
          (Ok pending))
       "pool1" "10.0.0.1" 50 0%nat
     = ({| returned := Rejected (Error "ETIMEDOUT"); floating := None |},
        2%nat,
        [ListCall (LICENSE_PATH +:+ "?$select=uuid,name");
         ListCall (LICENSE_PATH +:+ "u1" +:+ "/offerings")]).
Proof.
  split.
  - exact (proj1 (listing_failure_propagates
                    (bigIqWith (Fail (Error "ECONNREFUSED")) (Ok None)
                       (Ok pending))
                    "pool1" "10.0.0.1" 50 0%nat 1%nat (Error "ECONNREFUSED"))
             eq_refl).
  - exact (proj2 (listing_failure_propagates
                    (bigIqWith (Ok (PoolArray [pool1]))
                       (Fail (Error "ETIMEDOUT")) (Ok pending))
                    "pool1" "10.0.0.1" 50 0%nat 1%nat (Error "ETIMEDOUT"))
             [pool1] 2%nat eq_refl eq_refl eq_refl).
Defined.

Lemma pool_without_id_is_not_found_witness :
  truthy (pool_id {| pool_name := JString "pool1"; pool_id := JUndefined |})
    = false
  /\ getUnmanagedDeviceLicense
       (bigIqWith (Ok (PoolArray shadowedPools)) (Ok (Some inventory))
          (Ok pending))
       "pool1" "10.0.0.1" 50 0%nat
     = ({| returned :=
             Rejected (Error "No license pool found with name: pool1");
           floating := None |},
        1%nat, [ListCall (LICENSE_PATH +:+ "?$select=uuid,name")]).
Proof.
  split; [reflexivity|].
  refine (pool_without_id_is_not_found
            (bigIqWith (Ok (PoolArray shadowedPools)) (Ok (Some inventory))
               (Ok pending))
            "pool1" "10.0.0.1" 50
            [ {| pool_name := JString "pool0"; pool_id := JString "u0" |} ]
            [pool1] {| pool_name := JString "pool1"; pool_id := JUndefined |}
            0%nat 1%nat eq_refl _ eq_refl eq_refl).
  intros other Hin. apply list_elem_of_singleton in Hin. subst other.
  simpl. discriminate.
Defined.

Lemma empty_inventory_is_rejected_bare_witness :
  listOfferings
    (bigIqWith (Ok (PoolArray [pool1])) (Ok None) (Ok pending))
    (LICENSE_PATH +:+ "u1" +:+ "/offerings") 1%nat = (Ok None, 2%nat)
  /\ getUnmanagedDeviceLicense
       (bigIqWith (Ok (PoolArray [pool1])) (Ok None) (Ok pending))
       "pool1" "10.0.0.1" 50 0%nat
     = ({| returned := Rejected NoReason; floating := None |}, 2%nat,
        [ListCall (LICENSE_PATH +:+ "?$select=uuid,name");
         ListCall (LICENSE_PATH +:+ "u1" +:+ "/offerings")]).
Proof.
  split; [reflexivity|].
  exact (empty_inventory_is_rejected_bare
           (bigIqWith (Ok (PoolArray [pool1])) (Ok None) (Ok pending))
           "pool1" "10.0.0.1" 50 [pool1] None 0%nat 1%nat 2%nat
           eq_refl eq_refl eq_refl (or_introl eq_refl)).
Defined.

Lemma polls_address_undefined_witness :
  ListCall "/cm/shared/licensing/pools/u1/members/undefined"
    ∈ (awaitLicensed bigIq u1 "FREE" 4%nat).2
  /\ "/cm/shared/licensing/pools/u1/members/undefined"
     = "/cm/shared/licensing/pools/" +:+ to_string u1
         +:+ "/members/undefined".
Proof.
  assert (Hin : ListCall "/cm/shared/licensing/pools/u1/members/undefined"
                ∈ (awaitLicensed bigIq u1 "FREE" 4%nat).2).
  { apply list_elem_of_In. vm_compute. right. left. reflexivity. }
  split; [exact Hin|].
  exact (polls_address_undefined bigIq u1 "FREE" _ 4%nat Hin).
Defined.

Lemma failed_poll_is_never_retried_witness :
  "FREE" <> ""
  /\ awaitLicensed
       (bigIqWith (Ok (PoolArray [pool1])) (Ok (Some inventory))
          (Fail (Error "ECONNRESET")))
       u1 "FREE" 4%nat
     = ({| returned := Resolved JUndefined; floating := Some Pending |},
        5%nat,
        [TryUntilCall {| maxRetries := 40; retryIntervalMs := 5000 |};
         ListCall (assignmentPath u1 JUndefined)]).
Proof.
  assert (Hkey : "FREE" <> "") by discriminate.
  split; [exact Hkey|].
  exact (failed_poll_is_never_retried
           (bigIqWith (Ok (PoolArray [pool1])) (Ok (Some inventory))
              (Fail (Error "ECONNRESET")))
           u1 "FREE" 4%nat 5%nat (Error "ECONNRESET") Hkey eq_refl).
Defined.



Lemma returned_ignores_polls_witness :
  floating (getUnmanagedDeviceLicense bigIq "pool1" "10.0.0.1" 50 0%nat).1.1
    <> floating
         (getUnmanagedDeviceLicense
            (bigIqWith (Ok (PoolArray [pool1])) (Ok (Some inventory))
               (Ok licensed))
            "pool1" "10.0.0.1" 50 0%nat).1.1
  /\ returned (getUnmanagedDeviceLicense bigIq "pool1" "10.0.0.1" 50 0%nat).1.1
     = returned
         (getUnmanagedDeviceLicense
            (bigIqWith (Ok (PoolArray [pool1])) (Ok (Some inventory))
               (Ok licensed))
            "pool1" "10.0.0.1" 50 0%nat).1.1.
Proof.
  split; [vm_compute; discriminate|].
  refine (proj2 (returned_ignores_polls bigIq
                   (bigIqWith (Ok (PoolArray [pool1])) (Ok (Some inventory))
                      (Ok licensed))
                   "pool1" "10.0.0.1" 50 0%nat _ _ _));
    intros path w0; reflexivity.
Defined.

Lemma timeout_never_reaches_caller_witness :
  selectLicense bigIq "pool1" 50 0%nat
    = (Resolved (u1, "FREE"), 4%nat,
       (selectLicense bigIq "pool1" 50 0%nat).2)
  /\ (getUnmanagedDeviceLicense bigIq "pool1" "10.0.0.1" 50 0%nat).1.1
     = {| returned := Resolved JUndefined;
          floating :=
            Some (Rejected (Error "Giving up on licensing via BIG-IQ.")) |}.
Proof.
  split; [reflexivity|].
  refine (timeout_never_reaches_caller bigIq "pool1" "10.0.0.1" 50 0%nat
            4%nat u1 "FREE" (selectLicense bigIq "pool1" 50 0%nat).2
            eq_refl _ _).
  - discriminate.
  - intros path w0. exists pending, (S w0). split; [reflexivity|].
    simpl. discriminate.
Defined.

End ProviderBehaviour.
